(** * Lap-pointer ring buffer ([src/lap_ptr_rb.h])

    A shallow embedding of the single-producer / single-consumer ring buffer
    whose read and write pointers carry one extra "lap" bit above the index
    bits, together with the properties of the state calculation
    [rb_get_state] and of the two unchecked advance primitives.

    [size_t] is modelled as an integer in [[0, 2^W)]; every C operation that
    can leave that interval is written with its wrap-around ([wrap]). *)

From Stdlib Require Import ZArith Lia Bool List.
From Stdlib Require Import Strings.Byte.
Import ListNotations.
Local Open Scope Z_scope.

(** ** Data model *)

(** [lap_ptr_rb_header_t]: the two pointers, the capacity and the flexible
    trailing byte array. *)
Record lap_ptr_rb_header : Type := mk_header {
  _rd_ptr : Z;
  _wr_ptr : Z;
  size    : Z;
  buffer  : list byte
}.

(** [lap_ptr_rb_state_t] (the [DBG_LAP_PTR_RB] fields are compiled out). *)
Record lap_ptr_rb_state : Type := mk_state {
  rd_idx : Z;
  wr_idx : Z;
  full   : bool;
  empty  : bool;
  used_size : Z;
  free_size : Z;
  contiguous_used_size : Z;
  contiguous_free_size : Z
}.

(** What a caller of [rb_get_state] holds: the shared descriptor and the
    slot that the out-parameter [state] points to. *)
Record caller_memory : Type := mk_memory {
  rb_in     : lap_ptr_rb_header;
  state_out : lap_ptr_rb_state
}.

Section SizeT.

(** Number of bits of [size_t]. *)
Variable W : Z.

(** Unsigned wrap-around of [size_t] arithmetic. *)
Definition wrap (x : Z) : Z := x mod 2 ^ W.

Definition in_range (x : Z) : Prop := 0 <= x < 2 ^ W.

(** A header whose three [size_t] fields hold representable values. *)
Definition header_wf (rb : lap_ptr_rb_header) : Prop :=
  in_range (_rd_ptr rb) /\ in_range (_wr_ptr rb) /\ in_range (size rb).

(** "must be 2^N, with (N+1) <= #bits in the field type". *)
Definition pow2_size (N : Z) (rb : lap_ptr_rb_header) : Prop :=
  0 <= N /\ N + 1 <= W /\ size rb = 2 ^ N.

(** ** [rb_get_state] *)

(** The value stored through [state]; the function works on the by-value
    copy [rb = *rb_in]. *)
Definition rb_get_state (rb : lap_ptr_rb_header) : lap_ptr_rb_state :=
  let rd_ptr := _rd_ptr rb in
  let wr_ptr := _wr_ptr rb in
  let size := size rb in
  let idx_mask := wrap (size - 1) in
  let wr_idx := Z.land wr_ptr idx_mask in
  let rd_idx := Z.land rd_ptr idx_mask in
  let ptr_xor_mask := Z.land (Z.lor size idx_mask) (Z.lxor rd_ptr wr_ptr) in
  let full := size =? ptr_xor_mask in
  let empty := 0 =? ptr_xor_mask in
  {| rd_idx := rd_idx;
     wr_idx := wr_idx;
     full := full;
     empty := empty;
     used_size :=
       if full then size else Z.land (wrap (wr_idx - rd_idx)) idx_mask;
     free_size :=
       if empty then size else Z.land (wrap (rd_idx - wr_idx)) idx_mask;
     contiguous_used_size :=
       if empty then 0
       else if wr_idx <=? rd_idx then wrap (size - rd_idx)
            else wrap (wr_idx - rd_idx);
     contiguous_free_size :=
       if full then 0
       else if wr_idx >=? rd_idx then wrap (size - wr_idx)
            else wrap (rd_idx - wr_idx) |}.

(** The call itself: the descriptor is only read, the out-parameter is
    overwritten. *)
Definition call_rb_get_state (m : caller_memory) : caller_memory :=
  {| rb_in := rb_in m; state_out := rb_get_state (rb_in m) |}.

(** ** Advance primitives *)

(** The header declares the parameter as [rb_header_t *], a name it does not
    define; it is read as the descriptor type [lap_ptr_rb_header_t], the only
    struct with a [_wr_ptr] and a [_rd_ptr]. *)

(** [rb->_wr_ptr += n;] *)
Definition rb_advance_write_unsafe (rb : lap_ptr_rb_header) (n : Z)
  : lap_ptr_rb_header :=
  {| _rd_ptr := _rd_ptr rb;
     _wr_ptr := wrap (_wr_ptr rb + n);
     size := size rb;
     buffer := buffer rb |}.

(** [rb->_rd_ptr += n;] *)
Definition rb_advance_read_unsafe (rb : lap_ptr_rb_header) (n : Z)
  : lap_ptr_rb_header :=
  {| _rd_ptr := wrap (_rd_ptr rb + n);
     _wr_ptr := _wr_ptr rb;
     size := size rb;
     buffer := buffer rb |}.

(** The advance calls as seen by a caller that still holds an earlier
    snapshot: the snapshot slot is not touched (it is merely stale). *)
Definition call_rb_advance_write_unsafe (m : caller_memory) (n : Z)
  : caller_memory :=
  {| rb_in := rb_advance_write_unsafe (rb_in m) n; state_out := state_out m |}.

Definition call_rb_advance_read_unsafe (m : caller_memory) (n : Z)
  : caller_memory :=
  {| rb_in := rb_advance_read_unsafe (rb_in m) n; state_out := state_out m |}.

(** ** Reachable descriptors *)

(** Bytes the producer is ahead of the consumer, in [size_t] arithmetic. *)
Definition occupancy (rb : lap_ptr_rb_header) : Z :=
  wrap (_wr_ptr rb - _rd_ptr rb).

(** Descriptors obtained from both pointers at 0 by advances that respect
    the limits reported by a fresh [rb_get_state]. *)
Inductive reachable (N : Z) : lap_ptr_rb_header -> Prop :=
| reach_init : forall buf,
    0 <= N -> N + 1 <= W ->
    reachable N {| _rd_ptr := 0; _wr_ptr := 0; size := 2 ^ N; buffer := buf |}
| reach_write : forall rb n,
    reachable N rb ->
    0 <= n <= free_size (rb_get_state rb) ->
    reachable N (rb_advance_write_unsafe rb n)
| reach_read : forall rb n,
    reachable N rb ->
    0 <= n <= used_size (rb_get_state rb) ->
    reachable N (rb_advance_read_unsafe rb n).

(** ** The snapshot in terms of occupancy *)

(** The state a ring of capacity [cap] is expected to report when its read
    index is [ri] and [d] bytes are in use: indices in [[0, cap)], used and
    free summing to the capacity, and the contiguous sizes being the runs
    from each index that stop at the end of the storage. *)
Definition snapshot_of (cap ri d : Z) : lap_ptr_rb_state :=
  let wi := (ri + d) mod cap in
  {| rd_idx := ri;
     wr_idx := wi;
     full := d =? cap;
     empty := d =? 0;
     used_size := d;
     free_size := cap - d;
     contiguous_used_size := Z.min d (cap - ri);
     contiguous_free_size := Z.min (cap - d) (cap - wi) |}.

End SizeT.

(** The formulas of [rb_get_state] read on the two indices [ri], [wi] and
    on whether the lap bits of the two pointers differ; [rb_get_state] is
    shown equal to this form for every power-of-two capacity [M]. *)
Definition state_of_indices (M ri wi : Z) (lap : bool) : lap_ptr_rb_state :=
  let full := (ri =? wi) && lap in
  let empty := (ri =? wi) && negb lap in
  {| rd_idx := ri;
     wr_idx := wi;
     full := full;
     empty := empty;
     used_size := if full then M else (wi - ri) mod M;
     free_size := if empty then M else (ri - wi) mod M;
     contiguous_used_size :=
       if empty then 0 else if wi <=? ri then M - ri else wi - ri;
     contiguous_free_size :=
       if full then 0 else if wi >=? ri then M - wi else ri - wi |}.

(** Bit [N] of the read and of the write pointer differ. *)
Definition lap_differs (N : Z) (rb : lap_ptr_rb_header) : bool :=
  xorb (Z.testbit (_rd_ptr rb) N) (Z.testbit (_wr_ptr rb) N).

(** ** Concrete descriptors *)

(** A fresh descriptor of the given capacity with empty storage contents
    left unspecified by the header ([.rb={.wr_ptr=0, .rd_ptr=0, .size=...}]). *)
Definition fresh (cap : Z) (buf : list byte) : lap_ptr_rb_header :=
  {| _rd_ptr := 0; _wr_ptr := 0; size := cap; buffer := buf |}.

(** Capacity 8: from empty, write 8 bytes, then read 5. *)
Definition wrap_boundary_run (W : Z) : lap_ptr_rb_header :=
  rb_advance_read_unsafe W (rb_advance_write_unsafe W (fresh 8 []) 8) 5.

(** Capacity 8 with three bytes in use and both pointers a few bytes below
    the largest [size_t]. *)
Definition near_max (W : Z) : lap_ptr_rb_header :=
  {| _rd_ptr := 2 ^ W - 6; _wr_ptr := 2 ^ W - 3; size := 8; buffer := [] |}.

(** ** The demonstration program ([TEST_LAP_PTR_RB]) *)

(** [#define min(_x,_y) (((_x) < (_y) ? (_x) : (_y)))] *)
Definition min_macro (x y : Z) : Z := if x <? y then x else y.

(** [#define BUFF_SIZE (1U << 14)] *)
Definition BUFF_SIZE : Z := Z.shiftl 1 14.

(** A value stored into a [uint8_t] cell. *)
Definition uint8 (z : Z) : byte :=
  match Byte.of_N (Z.to_N (z mod 256)) with
  | Some b => b
  | None => x00
  end.

Fixpoint list_set {A : Type} (l : list A) (k : nat) (v : A) : list A :=
  match l, k with
  | [], _ => []
  | _ :: t, O => v :: t
  | h :: t, S k' => h :: list_set t k' v
  end.

(** [buffer[idx] = v]; an index outside the storage is a fault. *)
Definition buffer_store (buf : list byte) (idx : Z) (v : byte)
  : option (list byte) :=
  if (0 <=? idx) && (idx <? Z.of_nat (length buf))
  then Some (list_set buf (Z.to_nat idx) v)
  else None.


(** Where the [generator] thread stands: at the top of its [while] loop,
    about to call [rb_get_state], or at the test of its [for] loop with the
    locals [rb_state.wr_idx], [n], [interval], [i] and [interval_counter]. *)
Inductive generator_pc : Type :=
| gen_top
| gen_for (wr_idx n interval i interval_counter : Z).

Record generator_thread : Type := mk_generator {
  wr_counter : Z;
  gen_pc : generator_pc
}.



Definition with_buffer (rb : lap_ptr_rb_header) (buf : list byte)
  : lap_ptr_rb_header :=
  {| _rd_ptr := _rd_ptr rb; _wr_ptr := _wr_ptr rb; size := size rb;
     buffer := buf |}.

Section Threads.

Variable W : Z.

(** One step of [generator]: either the snapshot and the choice of [n], or
    one turn of the [for] loop, or the advance after the loop.  [None] is a
    fault: a store outside the storage or a remainder by zero.  The [int]
    locals [i] and [interval_counter] count up from 0 to at most [n]; where
    C converts them to [size_t] the conversion is written as [wrap].  When
    [n > 0] fails, [&&] leaves [++interval_counter] unevaluated.  Printing,
    sleeping and the stop flag do not touch the ring and are left out. *)
Definition generator_step (rb : lap_ptr_rb_header) (g : generator_thread)
  : option (lap_ptr_rb_header * generator_thread) :=
  match gen_pc g with
  | gen_top =>
      let rb_state := rb_get_state W rb in
      let write_size := Z.shiftr BUFF_SIZE 2 in
      if free_size rb_state >=? write_size then
        let n := min_macro write_size (contiguous_free_size rb_state) in
        let interval := Z.shiftr n 7 in
        Some (rb, {| wr_counter := wr_counter g;
                     gen_pc := gen_for (wr_idx rb_state) n interval 0 0 |})
      else Some (rb, g)
  | gen_for wr_idx n interval i interval_counter =>
      if wrap W i <? n then
        match buffer_store (buffer rb) (wrap W (i + wr_idx))
                           (uint8 (wr_counter g)) with
        | None => None
        | Some buf =>
            let rb1 := with_buffer rb buf in
            let wr_counter1 := (wr_counter g + 1) mod 256 in
            let interval_counter1 := interval_counter + 1 in
            if 0 <? n then
              if interval =? 0 then None
              else if 0 =? wrap W interval_counter1 mod interval then
                Some (rb_advance_write_unsafe W rb1 interval_counter1,
                      {| wr_counter := wr_counter1;
                         gen_pc := gen_for wr_idx n interval (i + 1) 0 |})
              else
                Some (rb1,
                      {| wr_counter := wr_counter1;
                         gen_pc := gen_for wr_idx n interval (i + 1)
                                           interval_counter1 |})
            else
              Some (rb1,
                    {| wr_counter := wr_counter1;
                       gen_pc := gen_for wr_idx n interval (i + 1)
                                         interval_counter |})
        end
      else
        Some (rb_advance_write_unsafe W rb interval_counter,
              {| wr_counter := wr_counter g; gen_pc := gen_top |})
  end.








End Threads.






(** ** Arithmetic of powers of two *)

Lemma pow2_pos (N : Z) : 0 <= N -> 0 < 2 ^ N.
Proof. intros; apply Z.pow_pos_nonneg; lia. Qed.

Lemma pow2_succ (N : Z) : 0 <= N -> 2 ^ (N + 1) = 2 * 2 ^ N.
Proof. intros; rewrite Z.pow_add_r by lia; change (2 ^ 1) with 2; lia. Qed.

(** The word modulus is a multiple of twice the capacity. *)
Lemma pow2_word_split (W N : Z) :
  0 <= N -> N + 1 <= W -> exists K, 0 < K /\ 2 ^ W = 2 * 2 ^ N * K.
Proof.
  intros HN HW. exists (2 ^ (W - (N + 1))). split.
  - apply pow2_pos; lia.
  - rewrite <- pow2_succ, <- Z.pow_add_r by lia. f_equal; lia.
Qed.

Lemma pow2_divide_word (W N : Z) :
  0 <= N -> N + 1 <= W -> (2 ^ N | 2 ^ W) /\ (2 * 2 ^ N | 2 ^ W).
Proof.
  intros HN HW. destruct (pow2_word_split W N HN HW) as (K & _ & E).
  split; [exists (2 * K) | exists K]; lia.
Qed.

(** A difference of two residues, reduced again. *)
Lemma mod_diff_cases (x m : Z) :
  0 < m -> - m < x < m -> x mod m = if x <? 0 then x + m else x.
Proof.
  intros Hm Hx. destruct (Z.ltb_spec x 0).
  - symmetry; apply (Z.mod_unique x m (-1)); lia.
  - apply Z.mod_small; lia.
Qed.

(** ** Bit-level facts behind the masks *)

Lemma land_lxor_distr (a b m : Z) :
  Z.land (Z.lxor a b) m = Z.lxor (Z.land a m) (Z.land b m).
Proof.
  apply Z.bits_inj'; intros i _.
  rewrite !Z.land_spec, !Z.lxor_spec, !Z.land_spec.
  destruct (Z.testbit a i), (Z.testbit b i), (Z.testbit m i); reflexivity.
Qed.

Lemma lxor_mod_pow2 (a b N : Z) :
  0 <= N -> (Z.lxor a b) mod 2 ^ N = Z.lxor (a mod 2 ^ N) (b mod 2 ^ N).
Proof.
  intros HN. rewrite <- !Z.land_ones by lia. apply land_lxor_distr.
Qed.

(** [size - 1U] is the mask of the [N] index bits. *)
Lemma idx_mask_ones (W N : Z) :
  0 <= N -> N + 1 <= W -> wrap W (2 ^ N - 1) = Z.ones N.
Proof.
  intros HN HW. unfold wrap. rewrite Z.ones_equiv.
  destruct (pow2_word_split W N HN HW) as (K & HK & E).
  pose proof (pow2_pos N HN).
  rewrite Z.mod_small; nia.
Qed.

(** [size | idx_mask] covers the index bits and the lap bit. *)
Lemma lap_mask_ones (N : Z) :
  0 <= N -> Z.lor (2 ^ N) (Z.ones N) = Z.ones (N + 1).
Proof.
  intros HN.
  assert (E : Z.land (2 ^ N) (Z.ones N) = 0)
    by (rewrite Z.land_ones by lia; apply Z.mod_same; pose proof (pow2_pos N HN); lia).
  pose proof (Z.add_lor_land (2 ^ N) (Z.ones N)) as A.
  rewrite E in A. rewrite !Z.ones_equiv in *. rewrite pow2_succ by lia. lia.
Qed.

(** The masked xor splits into the xor of the indices and the xor of the
    lap bits. *)
Lemma ptr_xor_mask_split (rd wr N : Z) :
  0 <= N ->
  Z.land (Z.ones (N + 1)) (Z.lxor rd wr) =
  Z.lxor (rd mod 2 ^ N) (wr mod 2 ^ N)
  + 2 ^ N * Z.b2z (xorb (Z.testbit rd N) (Z.testbit wr N)).
Proof.
  intros HN. pose proof (pow2_pos N HN).
  rewrite Z.land_comm, Z.land_ones by lia.
  rewrite pow2_succ, (Z.mul_comm 2) by lia.
  rewrite Z.rem_mul_r by lia.
  rewrite lxor_mod_pow2 by lia.
  rewrite <- Z.testbit_spec' by lia.
  now rewrite Z.lxor_spec.
Qed.

Lemma lxor_idx_range (x y N : Z) :
  0 <= N -> 0 <= Z.lxor (x mod 2 ^ N) (y mod 2 ^ N) < 2 ^ N.
Proof.
  intros HN. rewrite <- lxor_mod_pow2 by lia.
  apply Z.mod_pos_bound, pow2_pos, HN.
Qed.

Lemma lxor_idx_zero (x y : Z) : (Z.lxor x y =? 0) = (x =? y).
Proof.
  destruct (Z.eqb_spec x y) as [->|Hne].
  - rewrite Z.lxor_nilpotent; reflexivity.
  - apply Z.eqb_neq; intros E; apply Hne, Z.lxor_eq, E.
Qed.

(** ** [rb_get_state] on indices and lap bits *)

Lemma lap_flags (M L : Z) (b : bool) :
  0 < M -> 0 <= L < M ->
  (M =? L + M * Z.b2z b) = (L =? 0) && b /\
  (0 =? L + M * Z.b2z b) = (L =? 0) && negb b.
Proof.
  intros HM HL. destruct b; cbn [Z.b2z negb];
    destruct (Z.eqb_spec L 0); cbn [andb]; split;
    try (apply Z.eqb_eq; lia); apply Z.eqb_neq; lia.
Qed.

Lemma wrap_small (W x : Z) : 0 <= x < 2 ^ W -> wrap W x = x.
Proof. intros; apply Z.mod_small; assumption. Qed.

Lemma wrap_mod_index (W N x : Z) :
  0 <= N -> N + 1 <= W -> (wrap W x) mod 2 ^ N = x mod 2 ^ N.
Proof.
  intros HN HW. unfold wrap. apply Z.mod_mod_divide.
  apply (pow2_divide_word W N HN HW).
Qed.

Lemma rb_get_state_indices (W N : Z) (rb : lap_ptr_rb_header) :
  pow2_size W N rb ->
  rb_get_state W rb =
  state_of_indices (2 ^ N) (_rd_ptr rb mod 2 ^ N) (_wr_ptr rb mod 2 ^ N)
                   (lap_differs N rb).
Proof.
  intros (HN & HW & Hsz).
  destruct (pow2_word_split W N HN HW) as (K & HK & EW).
  pose proof (pow2_pos N HN) as HM.
  unfold rb_get_state, state_of_indices, lap_differs.
  rewrite Hsz, idx_mask_ones, lap_mask_ones, ptr_xor_mask_split by lia.
  rewrite !Z.land_ones, !wrap_mod_index by lia.
  set (ri := _rd_ptr rb mod 2 ^ N). set (wi := _wr_ptr rb mod 2 ^ N).
  assert (Hri : 0 <= ri < 2 ^ N) by (apply Z.mod_pos_bound; lia).
  assert (Hwi : 0 <= wi < 2 ^ N) by (apply Z.mod_pos_bound; lia).
  pose proof (lxor_idx_range (_rd_ptr rb) (_wr_ptr rb) N HN) as HL.
  fold ri wi in HL.
  destruct (lap_flags (2 ^ N) (Z.lxor ri wi)
              (xorb (Z.testbit (_rd_ptr rb) N) (Z.testbit (_wr_ptr rb) N))
              HM HL) as [-> ->].
  rewrite lxor_idx_zero.
  f_equal.
  - destruct (_ && negb _); [reflexivity|].
    destruct (Z.leb_spec wi ri); apply wrap_small; nia.
  - destruct (_ && _); [reflexivity|].
    rewrite Z.geb_leb.
    destruct (Z.leb_spec ri wi); apply wrap_small; nia.
Qed.

(** ** Occupancy and the lap bit *)

(** A pointer reduced modulo twice the capacity is its index plus its lap
    bit. *)
Lemma ptr_mod_two_laps (p N : Z) :
  0 <= N -> p mod (2 * 2 ^ N) = p mod 2 ^ N + 2 ^ N * Z.b2z (Z.testbit p N).
Proof.
  intros HN. pose proof (pow2_pos N HN).
  rewrite (Z.mul_comm 2), Z.rem_mul_r, Z.testbit_spec' by lia. reflexivity.
Qed.

Lemma occupancy_nonneg (W : Z) (rb : lap_ptr_rb_header) :
  0 <= W -> 0 <= occupancy W rb.
Proof.
  intros HW. unfold occupancy, wrap.
  apply Z.mod_pos_bound, pow2_pos, HW.
Qed.

(** When the producer is at most one capacity ahead, the occupancy can be
    read off the indices and the lap bits. *)
Lemma occupancy_two_laps (W N : Z) (rb : lap_ptr_rb_header) :
  0 <= N -> N + 1 <= W ->
  occupancy W rb <= 2 ^ N ->
  occupancy W rb =
  ((_wr_ptr rb mod 2 ^ N + 2 ^ N * Z.b2z (Z.testbit (_wr_ptr rb) N))
   - (_rd_ptr rb mod 2 ^ N + 2 ^ N * Z.b2z (Z.testbit (_rd_ptr rb) N)))
  mod (2 * 2 ^ N).
Proof.
  intros HN HW Hd. pose proof (pow2_pos N HN) as HM.
  pose proof (occupancy_nonneg W rb ltac:(lia)) as Hd0.
  rewrite <- !ptr_mod_two_laps, <- Zminus_mod by lia.
  rewrite <- (Z.mod_small (occupancy W rb) (2 * 2 ^ N)) at 1 by lia.
  unfold occupancy, wrap. apply Z.mod_mod_divide.
  apply (pow2_divide_word W N HN HW).
Qed.

Lemma occupancy_flags (W N : Z) (rb : lap_ptr_rb_header) :
  0 <= N -> N + 1 <= W ->
  occupancy W rb <= 2 ^ N ->
  let M := 2 ^ N in
  let ri := _rd_ptr rb mod M in
  let wi := _wr_ptr rb mod M in
  let d := occupancy W rb in
  (ri =? wi) && lap_differs N rb = (d =? M) /\
  (ri =? wi) && negb (lap_differs N rb) = (d =? 0) /\
  (wi = ri + d /\ ri + d < M \/ wi = ri + d - M /\ M <= ri + d).
Proof.
  intros HN HW Hd M ri wi d. pose proof (pow2_pos N HN) as HM. fold M in HM.
  pose proof (occupancy_nonneg W rb ltac:(lia)) as Hd0. fold d in Hd0.
  pose proof (occupancy_two_laps W N rb HN HW Hd) as E.
  fold M ri wi d in E, Hd.
  assert (Hri : 0 <= ri < M) by (apply Z.mod_pos_bound; lia).
  assert (Hwi : 0 <= wi < M) by (apply Z.mod_pos_bound; lia).
  unfold lap_differs.
  destruct (Z.testbit (_rd_ptr rb) N), (Z.testbit (_wr_ptr rb) N);
    cbn [Z.b2z xorb negb] in *;
    rewrite mod_diff_cases in E by lia;
    match type of E with context [?x <? 0] => destruct (Z.ltb_spec x 0) end;
    destruct (Z.eqb_spec ri wi), (Z.eqb_spec d M), (Z.eqb_spec d 0);
    cbn [andb]; repeat split; try reflexivity; try lia.
Qed.

Lemma occupancy_advance_write (W N : Z) (rb : lap_ptr_rb_header) (n : Z) :
  0 <= N -> N + 1 <= W ->
  0 <= n -> occupancy W rb + n <= 2 ^ N ->
  occupancy W (rb_advance_write_unsafe W rb n) = occupancy W rb + n.
Proof.
  intros HN HW Hn Hd.
  destruct (pow2_word_split W N HN HW) as (K & HK & EW).
  pose proof (pow2_pos N HN) as HM.
  pose proof (occupancy_nonneg W rb ltac:(lia)) as Hd0.
  unfold occupancy, wrap in *. cbn [_wr_ptr _rd_ptr rb_advance_write_unsafe].
  unfold wrap. rewrite Zminus_mod_idemp_l.
  replace (_wr_ptr rb + n - _rd_ptr rb) with (_wr_ptr rb - _rd_ptr rb + n) by lia.
  rewrite <- Zplus_mod_idemp_l. apply Z.mod_small. nia.
Qed.

Lemma occupancy_advance_read (W N : Z) (rb : lap_ptr_rb_header) (n : Z) :
  0 <= N -> N + 1 <= W ->
  0 <= n <= occupancy W rb -> occupancy W rb <= 2 ^ N ->
  occupancy W (rb_advance_read_unsafe W rb n) = occupancy W rb - n.
Proof.
  intros HN HW Hn Hd.
  destruct (pow2_word_split W N HN HW) as (K & HK & EW).
  pose proof (pow2_pos N HN) as HM.
  unfold occupancy, wrap in *. cbn [_wr_ptr _rd_ptr rb_advance_read_unsafe].
  unfold wrap. rewrite Zminus_mod_idemp_r.
  replace (_wr_ptr rb - (_rd_ptr rb + n)) with (_wr_ptr rb - _rd_ptr rb - n) by lia.
  rewrite <- Zminus_mod_idemp_l. apply Z.mod_small. nia.
Qed.

(** ** [rb_get_state] in terms of occupancy *)

Lemma rb_get_state_snapshot (W N : Z) (rb : lap_ptr_rb_header) :
  pow2_size W N rb ->
  occupancy W rb <= 2 ^ N ->
  rb_get_state W rb =
  snapshot_of (2 ^ N) (_rd_ptr rb mod 2 ^ N) (occupancy W rb).
Proof.
  intros HP Hd. rewrite (rb_get_state_indices W N rb HP).
  destruct HP as (HN & HW & Hsz). pose proof (pow2_pos N HN) as HM.
  pose proof (occupancy_nonneg W rb ltac:(lia)) as Hd0.
  destruct (occupancy_flags W N rb HN HW Hd) as (Ef & Ee & Hwi).
  unfold state_of_indices, snapshot_of. rewrite Ef, Ee.
  set (M := 2 ^ N) in *. set (d := occupancy W rb) in *.
  set (ri := _rd_ptr rb mod M) in *. set (wi := _wr_ptr rb mod M) in *.
  assert (Hri : 0 <= ri < M) by (apply Z.mod_pos_bound; lia).
  assert (Ewi : (ri + d) mod M = wi).
  { destruct Hwi as [[-> ?]|[-> ?]].
    - apply Z.mod_small; lia.
    - symmetry; apply (Z.mod_unique (ri + d) M 1); lia. }
  rewrite Ewi. rewrite Z.geb_leb.
  f_equal.
  - destruct (Z.eqb_spec d M); [lia|]. rewrite mod_diff_cases by lia.
    destruct (Z.ltb_spec (wi - ri) 0); lia.
  - destruct (Z.eqb_spec d 0); [lia|]. rewrite mod_diff_cases by lia.
    destruct (Z.ltb_spec (ri - wi) 0); lia.
  - destruct (Z.eqb_spec d 0); [lia|]. destruct (Z.leb_spec wi ri); lia.
  - destruct (Z.eqb_spec d M); [lia|]. destruct (Z.leb_spec ri wi); lia.
Qed.

(** ** Invariant of reachable descriptors *)

Lemma reachable_invariant (W N : Z) (rb : lap_ptr_rb_header) :
  reachable W N rb ->
  pow2_size W N rb /\ header_wf W rb /\ occupancy W rb <= 2 ^ N.
Proof.
  induction 1 as [buf HN HW | rb n _ (HP & Hwf & Hd) Hn
                 | rb n _ (HP & Hwf & Hd) Hn].
  - destruct (pow2_word_split W N HN HW) as (K & HK & EW).
    pose proof (pow2_pos N HN) as HM.
    repeat split; cbn; try lia; nia.
  - rewrite (rb_get_state_snapshot W N rb HP Hd) in Hn. cbn in Hn.
    pose proof HP as (HN & HW & Hsz).
    destruct Hwf as (Hr & Hw & Hs).
    assert (0 < 2 ^ W) by (apply pow2_pos; lia).
    repeat split; cbn; try assumption; try (apply Z.mod_pos_bound; lia);
      try apply Hr; try apply Hs.
    rewrite (occupancy_advance_write W N) by lia. lia.
  - rewrite (rb_get_state_snapshot W N rb HP Hd) in Hn. cbn in Hn.
    pose proof HP as (HN & HW & Hsz).
    destruct Hwf as (Hr & Hw & Hs).
    assert (0 < 2 ^ W) by (apply pow2_pos; lia).
    pose proof (occupancy_nonneg W rb ltac:(lia)).
    repeat split; cbn; try assumption; try (apply Z.mod_pos_bound; lia);
      try apply Hw; try apply Hs.
    rewrite (occupancy_advance_read W N) by lia. lia.
Qed.

(** ** Properties of the snapshot *)

(** C1. For a power-of-two capacity, [full] and [empty] are the tests of
    the mask [(size | idx_mask) & (rd_ptr ^ wr_ptr)] against [size] and
    [0]; they are never both true; both are false when the indices differ;
    and when the indices are equal exactly one holds, [full] when bit [N]
    of the two pointers differs and [empty] when it agrees. *)
Theorem full_empty_exclusive (W N : Z) (rb : lap_ptr_rb_header) :
  pow2_size W N rb ->
  let s := rb_get_state W rb in
  let lap_mask :=
    Z.land (Z.lor (size rb) (wrap W (size rb - 1)))
           (Z.lxor (_rd_ptr rb) (_wr_ptr rb)) in
  (full s = (lap_mask =? size rb) /\ empty s = (lap_mask =? 0)) /\
  ~ (full s = true /\ empty s = true) /\
  (wr_idx s <> rd_idx s -> full s = false /\ empty s = false) /\
  (wr_idx s = rd_idx s ->
     full s = negb (empty s) /\
     (full s = true <->
        Z.testbit (_rd_ptr rb) N <> Z.testbit (_wr_ptr rb) N) /\
     (empty s = true <->
        Z.testbit (_rd_ptr rb) N = Z.testbit (_wr_ptr rb) N)).
Proof.
  intros HP s lap_mask. split.
  - subst s lap_mask. unfold rb_get_state. cbn [full empty].
    split; apply Z.eqb_sym.
  - subst s. rewrite (rb_get_state_indices W N rb HP).
    unfold state_of_indices, lap_differs. cbn [full empty wr_idx rd_idx].
    destruct (Z.eqb_spec (_rd_ptr rb mod 2 ^ N) (_wr_ptr rb mod 2 ^ N)) as [E|E];
      destruct (Z.testbit (_rd_ptr rb) N), (Z.testbit (_wr_ptr rb) N);
      cbn [andb xorb negb]; repeat split;
      try congruence; try (intros [? ?]; congruence);
      intros; try congruence; try (split; congruence).
Qed.

Lemma full_empty_exclusive_witness :
  pow2_size 64 3 (mk_header 5 13 8 []) /\
  full (rb_get_state 64 (mk_header 5 13 8 [])) = true /\
  empty (rb_get_state 64 (mk_header 5 13 8 [])) = false.
Proof.
  assert (HP : pow2_size 64 3 (mk_header 5 13 8 []))
    by (unfold pow2_size; cbn; repeat split; lia).
  split; [exact HP|].
  destruct (full_empty_exclusive 64 3 (mk_header 5 13 8 []) HP)
    as ((Ef & Ee) & _).
  split; [rewrite Ef | rewrite Ee]; reflexivity.
Defined.

(** C10. For a power-of-two capacity the reported contiguous runs stay
    inside the storage: [wr_idx + contiguous_free_size <= size] and
    [rd_idx + contiguous_used_size <= size], with both indices in
    [[0, size)] and both run lengths nonnegative. *)
Theorem contiguous_runs_in_bounds (W N : Z) (rb : lap_ptr_rb_header) :
  pow2_size W N rb ->
  let s := rb_get_state W rb in
  (0 <= wr_idx s < size rb /\ 0 <= contiguous_free_size s /\
   wr_idx s + contiguous_free_size s <= size rb) /\
  (0 <= rd_idx s < size rb /\ 0 <= contiguous_used_size s /\
   rd_idx s + contiguous_used_size s <= size rb).
Proof.
  intros HP s. subst s. rewrite (rb_get_state_indices W N rb HP).
  destruct HP as (HN & HW & ->). pose proof (pow2_pos N HN) as HM.
  unfold state_of_indices.
  cbn [wr_idx rd_idx contiguous_free_size contiguous_used_size].
  set (M := 2 ^ N) in *.
  set (ri := _rd_ptr rb mod M). set (wi := _wr_ptr rb mod M).
  assert (Hri : 0 <= ri < M) by (apply Z.mod_pos_bound; lia).
  assert (Hwi : 0 <= wi < M) by (apply Z.mod_pos_bound; lia).
  rewrite Z.geb_leb.
  destruct (_ && negb _), (_ && _), (Z.leb_spec wi ri), (Z.leb_spec ri wi);
    lia.
Qed.

Lemma contiguous_runs_in_bounds_witness :
  pow2_size 64 3 (mk_header 5 13 8 []) /\
  wr_idx (rb_get_state 64 (mk_header 5 13 8 []))
  + contiguous_free_size (rb_get_state 64 (mk_header 5 13 8 [])) <= 8.
Proof.
  assert (HP : pow2_size 64 3 (mk_header 5 13 8 []))
    by (unfold pow2_size; cbn; repeat split; lia).
  split; [exact HP|].
  apply (contiguous_runs_in_bounds 64 3 (mk_header 5 13 8 []) HP).
Defined.

(** ** Properties of reachable descriptors *)

Lemma wrap_boundary_run_reachable : reachable 64 3 (wrap_boundary_run 64).
Proof.
  unfold wrap_boundary_run.
  apply reach_read; [apply reach_write; [apply (reach_init 64 3); lia|]|];
    vm_compute; split; discriminate.
Defined.

(** C2. In every reachable state the snapshot's [used_size] and
    [free_size] are nonnegative and sum to the capacity. *)
Theorem used_plus_free_is_capacity (W N : Z) (rb : lap_ptr_rb_header) :
  reachable W N rb ->
  let s := rb_get_state W rb in
  0 <= used_size s /\ 0 <= free_size s /\
  used_size s + free_size s = size rb.
Proof.
  intros HR s. subst s.
  destruct (reachable_invariant W N rb HR) as (HP & _ & Hd).
  rewrite (rb_get_state_snapshot W N rb HP Hd).
  destruct HP as (HN & HW & ->).
  pose proof (occupancy_nonneg W rb ltac:(lia)).
  cbn [used_size free_size snapshot_of]. lia.
Qed.

Lemma used_plus_free_is_capacity_witness :
  reachable 64 3 (wrap_boundary_run 64) /\
  used_size (rb_get_state 64 (wrap_boundary_run 64))
  + free_size (rb_get_state 64 (wrap_boundary_run 64)) = 8.
Proof.
  split; [exact wrap_boundary_run_reachable|].
  apply (used_plus_free_is_capacity 64 3 (wrap_boundary_run 64)
           wrap_boundary_run_reachable).
Defined.

(** C3. From a reachable state, [rb_advance_read_unsafe] by [n] with
    [0 <= n <= used_size] lowers [used_size] by [n], raises [free_size] by
    [n], moves [rd_idx] forward by [n] modulo the capacity and leaves
    [wr_idx] where it was. *)
Theorem advance_read_roundtrip (W N : Z) (rb : lap_ptr_rb_header) (n : Z) :
  reachable W N rb ->
  0 <= n <= used_size (rb_get_state W rb) ->
  let s := rb_get_state W rb in
  let s' := rb_get_state W (rb_advance_read_unsafe W rb n) in
  used_size s' = used_size s - n /\
  free_size s' = free_size s + n /\
  rd_idx s' = (rd_idx s + n) mod size rb /\
  wr_idx s' = wr_idx s.
Proof.
  intros HR Hn s s'.
  destruct (reachable_invariant W N rb HR) as (HP & _ & Hd).
  assert (HP' : pow2_size W N (rb_advance_read_unsafe W rb n))
    by (destruct HP as (? & ? & ?); repeat split; assumption).
  assert (Ewr : wr_idx s' = wr_idx s).
  { subst s s'. rewrite (rb_get_state_indices W N _ HP),
      (rb_get_state_indices W N _ HP'). reflexivity. }
  subst s s'. rewrite (rb_get_state_snapshot W N rb HP Hd) in *.
  cbn [used_size snapshot_of] in Hn.
  pose proof HP as (HN & HW & Hsz).
  pose proof (occupancy_advance_read W N rb n HN HW Hn Hd) as Ed.
  rewrite (rb_get_state_snapshot W N _ HP') in * by lia.
  rewrite Ed, Hsz in *.
  cbn [used_size free_size rd_idx wr_idx snapshot_of] in *.
  repeat split; try lia; try exact Ewr.
  cbn [_rd_ptr rb_advance_read_unsafe].
  rewrite wrap_mod_index by lia. symmetry; apply Zplus_mod_idemp_l.
Qed.

Lemma advance_read_roundtrip_witness :
  reachable 64 3 (wrap_boundary_run 64) /\
  0 <= 2 <= used_size (rb_get_state 64 (wrap_boundary_run 64)) /\
  used_size
    (rb_get_state 64 (rb_advance_read_unsafe 64 (wrap_boundary_run 64) 2))
  = used_size (rb_get_state 64 (wrap_boundary_run 64)) - 2.
Proof.
  assert (Hn : 0 <= 2 <= used_size (rb_get_state 64 (wrap_boundary_run 64)))
    by (vm_compute; split; discriminate).
  split; [exact wrap_boundary_run_reachable|]. split; [exact Hn|].
  apply (advance_read_roundtrip 64 3 (wrap_boundary_run 64) 2
           wrap_boundary_run_reachable Hn).
Defined.

(** C5. In every reachable state [contiguous_used_size <= used_size] and
    [contiguous_free_size <= free_size]; the used sizes are equal when the
    used bytes starting at [rd_idx] end at or before the end of the
    storage, and the free sizes are equal when the free bytes starting at
    [wr_idx] do. *)
Theorem contiguous_le_total (W N : Z) (rb : lap_ptr_rb_header) :
  reachable W N rb ->
  let s := rb_get_state W rb in
  contiguous_used_size s <= used_size s /\
  contiguous_free_size s <= free_size s /\
  (rd_idx s + used_size s <= size rb ->
     contiguous_used_size s = used_size s) /\
  (wr_idx s + free_size s <= size rb ->
     contiguous_free_size s = free_size s).
Proof.
  intros HR s. subst s.
  destruct (reachable_invariant W N rb HR) as (HP & _ & Hd).
  rewrite (rb_get_state_snapshot W N rb HP Hd).
  destruct HP as (HN & HW & ->).
  cbn [used_size free_size contiguous_used_size contiguous_free_size
       rd_idx wr_idx snapshot_of]. lia.
Qed.

Lemma contiguous_le_total_witness :
  reachable 64 3 (wrap_boundary_run 64) /\
  contiguous_used_size (rb_get_state 64 (wrap_boundary_run 64))
  = used_size (rb_get_state 64 (wrap_boundary_run 64)).
Proof.
  split; [exact wrap_boundary_run_reachable|].
  apply (contiguous_le_total 64 3 (wrap_boundary_run 64)
           wrap_boundary_run_reachable).
  vm_compute; discriminate.
Defined.

(** ** The wrap-boundary scenario *)

Lemma wrap_small_const (W k : Z) : 4 <= W -> 0 <= k < 16 -> wrap W k = k.
Proof.
  intros HW Hk. apply wrap_small.
  pose proof (Z.pow_le_mono_r 2 4 W ltac:(lia) HW) as H.
  change (2 ^ 4) with 16 in H. lia.
Qed.

(** C4. Capacity 8, both pointers initially 0: after
    [rb_advance_write_unsafe 8] the ring is full with [wr_idx = 0], and after
    a further [rb_advance_read_unsafe 5] the snapshot is [wr_idx = 0],
    [rd_idx = 5], [used_size = 3], [free_size = 5],
    [contiguous_free_size = 5], [contiguous_used_size = 3]. *)
Theorem wrap_boundary_scenario (W : Z) :
  4 <= W ->
  (full (rb_get_state W (rb_advance_write_unsafe W (fresh 8 []) 8)) = true /\
   wr_idx (rb_get_state W (rb_advance_write_unsafe W (fresh 8 []) 8)) = 0) /\
  rb_get_state W (wrap_boundary_run W) =
  {| rd_idx := 5; wr_idx := 0; full := false; empty := false;
     used_size := 3; free_size := 5;
     contiguous_used_size := 3; contiguous_free_size := 5 |}.
Proof.
  intros HW.
  assert (HP : forall rd wr, pow2_size W 3 (mk_header rd wr 8 []))
    by (intros; repeat split; lia).
  unfold wrap_boundary_run, rb_advance_read_unsafe, rb_advance_write_unsafe,
    fresh. cbn [_rd_ptr _wr_ptr size buffer].
  rewrite !wrap_small_const by lia.
  rewrite !(rb_get_state_indices W 3 _ (HP _ _)).
  repeat split.
Qed.

Lemma wrap_boundary_scenario_witness :
  4 <= 64 /\
  contiguous_free_size (rb_get_state 64 (wrap_boundary_run 64)) = 5.
Proof.
  split; [lia|].
  destruct (wrap_boundary_scenario 64 ltac:(lia)) as [_ ->]. reflexivity.
Defined.

(** ** Pointer overflow *)

(** C6. Whatever the magnitude of the two pointers, as long as the write
    pointer is between 0 and [size] bytes ahead of the read pointer modulo
    [2^W], the snapshot is the one determined by the read index and the
    occupancy alone.  This stays so after an advance within the reported
    limit, also when the advanced pointer overflows [size_t] and restarts
    from [ptr + n - 2^W]; and two descriptors of the same capacity with the
    same read index and occupancy report the same state. *)
Theorem pointer_overflow_harmless
  (W N : Z) (rb rb2 : lap_ptr_rb_header) (n : Z) :
  pow2_size W N rb -> header_wf W rb ->
  occupancy W rb <= size rb ->
  let cap := size rb in
  let d := occupancy W rb in
  let ri := _rd_ptr rb mod cap in
  rb_get_state W rb = snapshot_of cap ri d /\
  (0 <= n <= free_size (rb_get_state W rb) ->
     let rb' := rb_advance_write_unsafe W rb n in
     (2 ^ W <= _wr_ptr rb + n -> _wr_ptr rb' = _wr_ptr rb + n - 2 ^ W) /\
     rb_get_state W rb' = snapshot_of cap ri (d + n)) /\
  (0 <= n <= used_size (rb_get_state W rb) ->
     let rb' := rb_advance_read_unsafe W rb n in
     (2 ^ W <= _rd_ptr rb + n -> _rd_ptr rb' = _rd_ptr rb + n - 2 ^ W) /\
     rb_get_state W rb' = snapshot_of cap ((ri + n) mod cap) (d - n)) /\
  (size rb2 = cap -> _rd_ptr rb2 mod cap = ri -> occupancy W rb2 = d ->
     rb_get_state W rb2 = rb_get_state W rb).
Proof.
  intros HP (Hrd & Hwr & Hsz) Hd cap d ri.
  pose proof HP as (HN & HW & Ecap).
  destruct (pow2_word_split W N HN HW) as (K & HK & EW).
  pose proof (pow2_pos N HN) as HM.
  pose proof (occupancy_nonneg W rb ltac:(lia)) as Hd0.
  assert (E0 : rb_get_state W rb = snapshot_of cap ri d).
  { subst cap d ri. rewrite Ecap in *. now apply rb_get_state_snapshot. }
  rewrite E0. cbn [free_size used_size snapshot_of].
  subst cap d ri. rewrite Ecap in *.
  split; [reflexivity|]. split; [|split].
  - intros Hn. split.
    + intros Hov. cbn [_wr_ptr rb_advance_write_unsafe].
      symmetry; apply (Z.mod_unique _ _ 1); unfold in_range in *; nia.
    + assert (HP' : pow2_size W N (rb_advance_write_unsafe W rb n))
        by (repeat split; assumption).
      rewrite (rb_get_state_snapshot W N _ HP');
        rewrite (occupancy_advance_write W N) by lia;
        [reflexivity | lia].
  - intros Hn. split.
    + intros Hov. cbn [_rd_ptr rb_advance_read_unsafe].
      symmetry; apply (Z.mod_unique _ _ 1); unfold in_range in *; nia.
    + assert (HP' : pow2_size W N (rb_advance_read_unsafe W rb n))
        by (repeat split; assumption).
      rewrite (rb_get_state_snapshot W N _ HP');
        rewrite (occupancy_advance_read W N) by lia;
        [|lia].
      cbn [_rd_ptr rb_advance_read_unsafe].
      rewrite wrap_mod_index, Zplus_mod_idemp_l by lia. reflexivity.
  - intros Es Er Eo.
    assert (HP2 : pow2_size W N rb2) by (repeat split; assumption).
    rewrite (rb_get_state_snapshot W N rb2 HP2) by lia.
    rewrite Er, Eo. reflexivity.
Qed.

Lemma pointer_overflow_harmless_witness :
  (pow2_size 64 3 (near_max 64) /\ header_wf 64 (near_max 64) /\
   occupancy 64 (near_max 64) <= size (near_max 64)) /\
  _wr_ptr (rb_advance_write_unsafe 64 (near_max 64) 5) = 2 /\
  rb_get_state 64 (rb_advance_write_unsafe 64 (near_max 64) 5) =
  {| rd_idx := 2; wr_idx := 2; full := true; empty := false;
     used_size := 8; free_size := 0;
     contiguous_used_size := 6; contiguous_free_size := 0 |}.
Proof.
  assert (HP : pow2_size 64 3 (near_max 64))
    by (repeat split; cbn; lia).
  assert (Hwf : header_wf 64 (near_max 64))
    by (repeat split; cbn; lia).
  assert (Hd : occupancy 64 (near_max 64) <= size (near_max 64))
    by (vm_compute; discriminate).
  split; [exact (conj HP (conj Hwf Hd))|].
  destruct (pointer_overflow_harmless 64 3 (near_max 64) (near_max 64) 5
              HP Hwf Hd) as (_ & Hw & _).
  destruct (Hw ltac:(vm_compute; split; discriminate)) as (Hp & Hs).
  split.
  - rewrite Hp; [reflexivity | vm_compute; discriminate].
  - rewrite Hs. reflexivity.
Defined.

(** ** Frame of the advance primitives *)

(** C7. [rb_advance_write_unsafe] adds [n] to [_wr_ptr] modulo [2^W] for
    every descriptor and every [n], with no check and no result other than
    the updated descriptor, and leaves [_rd_ptr], [size], the storage and a
    snapshot the caller already holds unchanged; [rb_advance_read_unsafe]
    does the same to [_rd_ptr]. *)
Theorem advance_unchecked_frame
  (W : Z) (rb : lap_ptr_rb_header) (st : lap_ptr_rb_state) (n : Z) :
  let w := rb_advance_write_unsafe W rb n in
  let r := rb_advance_read_unsafe W rb n in
  (_wr_ptr w = (_wr_ptr rb + n) mod 2 ^ W /\
   _rd_ptr w = _rd_ptr rb /\ size w = size rb /\ buffer w = buffer rb /\
   call_rb_advance_write_unsafe W (mk_memory rb st) n = mk_memory w st) /\
  (_rd_ptr r = (_rd_ptr rb + n) mod 2 ^ W /\
   _wr_ptr r = _wr_ptr rb /\ size r = size rb /\ buffer r = buffer rb /\
   call_rb_advance_read_unsafe W (mk_memory rb st) n = mk_memory r st).
Proof. repeat split. Qed.

(** Advancing the read pointer of an empty ring is accepted all the same;
    the next snapshot then reports 7 used bytes that were never written. *)
Example advance_read_overrun :
  let rb := rb_advance_read_unsafe 64 (fresh 8 []) 1 in
  _rd_ptr rb = 1 /\ _wr_ptr rb = 0 /\
  used_size (rb_get_state 64 rb) = 7 /\ free_size (rb_get_state 64 rb) = 1.
Proof. repeat split. Qed.

(** ** The query *)

(** C8. [rb_get_state] leaves the descriptor as it found it, what it stores
    depends on the descriptor only (not on the previous content of the
    out-parameter), and a second call with no advance in between stores the
    same state in every field. *)
Theorem get_state_idempotent (W : Z) (m : caller_memory) :
  rb_in (call_rb_get_state W m) = rb_in m /\
  state_out (call_rb_get_state W m) = rb_get_state W (rb_in m) /\
  state_out (call_rb_get_state W (call_rb_get_state W m)) =
  state_out (call_rb_get_state W m) /\
  call_rb_get_state W (call_rb_get_state W m) = call_rb_get_state W m.
Proof. repeat split. Qed.

(** ** Further properties of the state calculation *)

(** The sizes of [state_of_indices] for indices inside the ring. *)
Lemma state_of_indices_sizes (M ri wi : Z) (lap : bool) :
  0 <= ri < M -> 0 <= wi < M ->
  let s := state_of_indices M ri wi lap in
  (0 <= used_size s <= M /\ 0 <= free_size s <= M /\
   used_size s + free_size s = M) /\
  (0 <= contiguous_used_size s <= used_size s /\
   0 <= contiguous_free_size s <= free_size s) /\
  (full s = true <-> free_size s = 0) /\
  (full s = true <-> contiguous_free_size s = 0) /\
  (empty s = true <-> used_size s = 0) /\
  (empty s = true <-> contiguous_used_size s = 0).
Proof.
  intros Hri Hwi. unfold state_of_indices.
  cbn [used_size free_size contiguous_used_size contiguous_free_size
       full empty].
  rewrite Z.geb_leb, !mod_diff_cases by lia.
  destruct (Z.eqb_spec ri wi), lap; cbn [andb negb];
    destruct (Z.leb_spec wi ri), (Z.leb_spec ri wi),
      (Z.ltb_spec (wi - ri) 0), (Z.ltb_spec (ri - wi) 0);
    repeat split; intros; try lia; try reflexivity; try discriminate.
Qed.

Lemma pow2_small_header : pow2_size 64 3 (mk_header 21 13 8 []).
Proof. repeat split; cbn; lia. Defined.

(** X1. Whatever the two pointers hold (also after an advance beyond the
    reported limit), for a power-of-two capacity [used_size] and
    [free_size] lie in [[0, size]] and sum to [size], and each contiguous
    size lies between 0 and the corresponding total. *)
Theorem sizes_consistent_any_pointers (W N : Z) (rb : lap_ptr_rb_header) :
  pow2_size W N rb ->
  let s := rb_get_state W rb in
  0 <= used_size s <= size rb /\ 0 <= free_size s <= size rb /\
  used_size s + free_size s = size rb /\
  0 <= contiguous_used_size s <= used_size s /\
  0 <= contiguous_free_size s <= free_size s.
Proof.
  intros HP s. subst s. rewrite (rb_get_state_indices W N rb HP).
  destruct HP as (HN & HW & ->). pose proof (pow2_pos N HN) as HM.
  destruct (state_of_indices_sizes (2 ^ N) (_rd_ptr rb mod 2 ^ N)
              (_wr_ptr rb mod 2 ^ N) (lap_differs N rb))
    as ((? & ? & ?) & (? & ?) & _); try (apply Z.mod_pos_bound; lia).
  repeat split; lia.
Qed.

Lemma sizes_consistent_any_pointers_witness :
  pow2_size 64 3 (mk_header 21 13 8 []) /\
  used_size (rb_get_state 64 (mk_header 21 13 8 []))
  + free_size (rb_get_state 64 (mk_header 21 13 8 [])) = 8.
Proof.
  split; [exact pow2_small_header|].
  apply (sizes_consistent_any_pointers 64 3 (mk_header 21 13 8 [])
           pow2_small_header).
Defined.

(** X2. For a power-of-two capacity the flags can be read off the sizes:
    [full] holds exactly when [free_size] is 0 and exactly when
    [contiguous_free_size] is 0; [empty] holds exactly when [used_size] is
    0 and exactly when [contiguous_used_size] is 0.  So a ring that is not
    full always offers at least one contiguous free byte, and a ring that
    is not empty at least one contiguous used byte. *)
Theorem flags_match_sizes (W N : Z) (rb : lap_ptr_rb_header) :
  pow2_size W N rb ->
  let s := rb_get_state W rb in
  (full s = true <-> free_size s = 0) /\
  (full s = true <-> contiguous_free_size s = 0) /\
  (empty s = true <-> used_size s = 0) /\
  (empty s = true <-> contiguous_used_size s = 0) /\
  (full s = false -> 1 <= contiguous_free_size s) /\
  (empty s = false -> 1 <= contiguous_used_size s).
Proof.
  intros HP s. subst s. rewrite (rb_get_state_indices W N rb HP).
  destruct HP as (HN & HW & _). pose proof (pow2_pos N HN) as HM.
  destruct (state_of_indices_sizes (2 ^ N) (_rd_ptr rb mod 2 ^ N)
              (_wr_ptr rb mod 2 ^ N) (lap_differs N rb))
    as (_ & (Hu & Hf) & F1 & F2 & E1 & E2); try (apply Z.mod_pos_bound; lia).
  repeat split; try apply F1; try apply F2; try apply E1; try apply E2.
  - intros Hnf.
    destruct (Z.eq_dec (contiguous_free_size
      (state_of_indices (2 ^ N) (_rd_ptr rb mod 2 ^ N)
         (_wr_ptr rb mod 2 ^ N) (lap_differs N rb))) 0) as [E|E];
      [apply F2 in E; congruence | lia].
  - intros Hne.
    destruct (Z.eq_dec (contiguous_used_size
      (state_of_indices (2 ^ N) (_rd_ptr rb mod 2 ^ N)
         (_wr_ptr rb mod 2 ^ N) (lap_differs N rb))) 0) as [E|E];
      [apply E2 in E; congruence | lia].
Qed.

Lemma flags_match_sizes_witness :
  pow2_size 64 3 (mk_header 21 13 8 []) /\
  full (rb_get_state 64 (mk_header 21 13 8 [])) = true.
Proof.
  split; [exact pow2_small_header|].
  apply (flags_match_sizes 64 3 (mk_header 21 13 8 []) pow2_small_header).
  reflexivity.
Defined.

(** X3. From a reachable state, [rb_advance_write_unsafe] by [n] with
    [0 <= n <= free_size] raises [used_size] by [n], lowers [free_size] by
    [n], moves [wr_idx] forward by [n] modulo the capacity and leaves
    [rd_idx] where it was. *)
Theorem advance_write_roundtrip (W N : Z) (rb : lap_ptr_rb_header) (n : Z) :
  reachable W N rb ->
  0 <= n <= free_size (rb_get_state W rb) ->
  let s := rb_get_state W rb in
  let s' := rb_get_state W (rb_advance_write_unsafe W rb n) in
  used_size s' = used_size s + n /\
  free_size s' = free_size s - n /\
  wr_idx s' = (wr_idx s + n) mod size rb /\
  rd_idx s' = rd_idx s.
Proof.
  intros HR Hn s s'.
  destruct (reachable_invariant W N rb HR) as (HP & _ & Hd).
  assert (HP' : pow2_size W N (rb_advance_write_unsafe W rb n))
    by (destruct HP as (? & ? & ?); repeat split; assumption).
  assert (Ewr : wr_idx s' = (wr_idx s + n) mod size rb).
  { subst s s'. rewrite (rb_get_state_indices W N _ HP),
      (rb_get_state_indices W N _ HP').
    destruct HP as (HN & HW & ->).
    cbn [wr_idx state_of_indices _wr_ptr rb_advance_write_unsafe].
    rewrite wrap_mod_index by lia. symmetry; apply Zplus_mod_idemp_l. }
  split; [|split; [|split; [exact Ewr|]]]; clear Ewr; subst s s';
    rewrite (rb_get_state_snapshot W N rb HP Hd) in *;
    cbn [free_size snapshot_of] in Hn;
    pose proof HP as (HN & HW & Hsz);
    pose proof (occupancy_advance_write W N rb n HN HW
                  ltac:(lia) ltac:(lia)) as Ed;
    rewrite (rb_get_state_snapshot W N _ HP') by lia;
    rewrite Ed; cbn [used_size free_size rd_idx snapshot_of];
    try reflexivity; lia.
Qed.

Lemma advance_write_roundtrip_witness :
  reachable 64 3 (wrap_boundary_run 64) /\
  0 <= 4 <= free_size (rb_get_state 64 (wrap_boundary_run 64)) /\
  used_size
    (rb_get_state 64 (rb_advance_write_unsafe 64 (wrap_boundary_run 64) 4))
  = used_size (rb_get_state 64 (wrap_boundary_run 64)) + 4.
Proof.
  assert (Hn : 0 <= 4 <= free_size (rb_get_state 64 (wrap_boundary_run 64)))
    by (vm_compute; split; discriminate).
  split; [exact wrap_boundary_run_reachable|]. split; [exact Hn|].
  apply (advance_write_roundtrip 64 3 (wrap_boundary_run 64) 4
           wrap_boundary_run_reachable Hn).
Defined.



(** ** Laps *)

Lemma lap_bit_of_residue (p q N : Z) :
  0 <= N -> p mod (2 * 2 ^ N) = q mod (2 * 2 ^ N) ->
  p mod 2 ^ N = q mod 2 ^ N /\ Z.testbit p N = Z.testbit q N.
Proof.
  intros HN E. pose proof (pow2_pos N HN) as HM.
  assert (Ei : p mod 2 ^ N = q mod 2 ^ N).
  { rewrite <- (Z.mod_mod_divide p (2 * 2 ^ N) (2 ^ N)),
      <- (Z.mod_mod_divide q (2 * 2 ^ N) (2 ^ N)), E;
      [reflexivity | exists 2; lia | exists 2; lia]. }
  split; [exact Ei|].
  rewrite !ptr_mod_two_laps, Ei in E by lia.
  destruct (Z.testbit p N), (Z.testbit q N); cbn [Z.b2z] in E;
    try reflexivity; lia.
Qed.

Lemma wrap_mod_two_laps (W N x : Z) :
  0 <= N -> N + 1 <= W -> (wrap W x) mod (2 * 2 ^ N) = x mod (2 * 2 ^ N).
Proof.
  intros HN HW. unfold wrap. apply Z.mod_mod_divide.
  apply (pow2_divide_word W N HN HW).
Qed.

(** Adding one capacity keeps the index and flips the lap bit. *)
Lemma lap_bit_flip (W N p : Z) :
  0 <= N -> N + 1 <= W ->
  (wrap W (p + 2 ^ N)) mod 2 ^ N = p mod 2 ^ N /\
  Z.testbit (wrap W (p + 2 ^ N)) N = negb (Z.testbit p N).
Proof.
  intros HN HW. pose proof (pow2_pos N HN) as HM.
  assert (Ei : (wrap W (p + 2 ^ N)) mod 2 ^ N = p mod 2 ^ N).
  { rewrite wrap_mod_index by lia.
    rewrite <- (Z.mul_1_l (2 ^ N)) at 1. apply Z.mod_add; lia. }
  split; [exact Ei|].
  pose proof (wrap_mod_two_laps W N (p + 2 ^ N) HN HW) as E.
  rewrite (ptr_mod_two_laps (wrap W (p + 2 ^ N))), Ei in E by lia.
  rewrite <- Zplus_mod_idemp_l, (ptr_mod_two_laps p) in E by lia.
  pose proof (Z.mod_pos_bound p (2 ^ N) HM) as Hp.
  destruct (Z.testbit p N), (Z.testbit (wrap W (p + 2 ^ N)) N);
    cbn [Z.b2z negb] in *; try reflexivity; exfalso.
  - rewrite <- (Z.mod_unique (p mod 2 ^ N + 2 ^ N * 1 + 2 ^ N) (2 * 2 ^ N)
                  1 (p mod 2 ^ N)) in E by lia. lia.
  - rewrite (Z.mod_small (p mod 2 ^ N + 2 ^ N * 0 + 2 ^ N)) in E by lia. lia.
Qed.

(** X5. The snapshot sees the pointers only modulo twice the capacity: two
    descriptors of the same power-of-two capacity whose read pointers and
    whose write pointers agree modulo [2 * size] report the same state.  In
    particular an advance of either pointer by a multiple of [2 * size]
    cannot be told from no advance at all. *)
Theorem snapshot_period_two_laps
  (W N : Z) (rb rb2 : lap_ptr_rb_header) (k : Z) :
  pow2_size W N rb ->
  (size rb2 = size rb ->
   _rd_ptr rb2 mod (2 * size rb) = _rd_ptr rb mod (2 * size rb) ->
   _wr_ptr rb2 mod (2 * size rb) = _wr_ptr rb mod (2 * size rb) ->
   rb_get_state W rb2 = rb_get_state W rb) /\
  rb_get_state W (rb_advance_write_unsafe W rb (k * (2 * size rb)))
  = rb_get_state W rb /\
  rb_get_state W (rb_advance_read_unsafe W rb (k * (2 * size rb)))
  = rb_get_state W rb.
Proof.
  intros HP. pose proof HP as (HN & HW & Hsz).
  assert (G : forall rb2, size rb2 = size rb ->
    _rd_ptr rb2 mod (2 * size rb) = _rd_ptr rb mod (2 * size rb) ->
    _wr_ptr rb2 mod (2 * size rb) = _wr_ptr rb mod (2 * size rb) ->
    rb_get_state W rb2 = rb_get_state W rb).
  { intros r2 Es Er Ew. rewrite Hsz in Er, Ew.
    assert (HP2 : pow2_size W N r2) by (repeat split; congruence).
    rewrite (rb_get_state_indices W N _ HP), (rb_get_state_indices W N _ HP2).
    destruct (lap_bit_of_residue _ _ N HN Er) as (-> & Br).
    destruct (lap_bit_of_residue _ _ N HN Ew) as (-> & Bw).
    unfold lap_differs. rewrite Br, Bw. reflexivity. }
  pose proof (pow2_pos N HN) as HM.
  split; [apply G|split]; apply G; try reflexivity;
    cbn [_rd_ptr _wr_ptr rb_advance_write_unsafe rb_advance_read_unsafe];
    rewrite Hsz, wrap_mod_two_laps by lia; apply Z.mod_add; lia.
Qed.

Lemma snapshot_period_two_laps_witness :
  pow2_size 64 3 (mk_header 21 13 8 []) /\
  rb_get_state 64 (rb_advance_write_unsafe 64 (mk_header 21 13 8 []) 16)
  = rb_get_state 64 (mk_header 21 13 8 []).
Proof.
  split; [exact pow2_small_header|].
  apply (snapshot_period_two_laps 64 3 (mk_header 21 13 8 [])
           (mk_header 21 13 8 []) 1 pow2_small_header).
Defined.

(** X6. Writing a whole capacity into an empty ring makes it full, and
    reading a whole capacity out of a full ring makes it empty, for any
    pointer values: after [rb_advance_write_unsafe rb size] from an empty
    snapshot the state has [full], [used_size = size], [free_size = 0] and
    [contiguous_free_size = 0]; after [rb_advance_read_unsafe rb size] from
    a full one it has [empty], [used_size = 0], [free_size = size] and
    [contiguous_used_size = 0].  The indices do not move. *)
Theorem fill_and_drain (W N : Z) (rb : lap_ptr_rb_header) :
  pow2_size W N rb ->
  let s := rb_get_state W rb in
  (empty s = true ->
     let s' := rb_get_state W (rb_advance_write_unsafe W rb (size rb)) in
     full s' = true /\ empty s' = false /\
     used_size s' = size rb /\ free_size s' = 0 /\
     contiguous_free_size s' = 0 /\
     wr_idx s' = wr_idx s /\ rd_idx s' = rd_idx s) /\
  (full s = true ->
     let s' := rb_get_state W (rb_advance_read_unsafe W rb (size rb)) in
     empty s' = true /\ full s' = false /\
     used_size s' = 0 /\ free_size s' = size rb /\
     contiguous_used_size s' = 0 /\
     wr_idx s' = wr_idx s /\ rd_idx s' = rd_idx s).
Proof.
  intros HP s. pose proof HP as (HN & HW & Hsz).
  pose proof (pow2_pos N HN) as HM.
  assert (HPw : pow2_size W N (rb_advance_write_unsafe W rb (size rb)))
    by (repeat split; assumption).
  assert (HPr : pow2_size W N (rb_advance_read_unsafe W rb (size rb)))
    by (repeat split; assumption).
  subst s. rewrite (rb_get_state_indices W N _ HP),
    (rb_get_state_indices W N _ HPw), (rb_get_state_indices W N _ HPr).
  unfold lap_differs.
  cbn [_rd_ptr _wr_ptr rb_advance_write_unsafe rb_advance_read_unsafe].
  rewrite Hsz.
  destruct (lap_bit_flip W N (_rd_ptr rb) HN HW) as (-> & ->).
  destruct (lap_bit_flip W N (_wr_ptr rb) HN HW) as (-> & ->).
  unfold state_of_indices.
  cbn [full empty used_size free_size contiguous_used_size
       contiguous_free_size wr_idx rd_idx].
  destruct (Z.eqb_spec (_rd_ptr rb mod 2 ^ N) (_wr_ptr rb mod 2 ^ N)) as [E|E];
    destruct (Z.testbit (_rd_ptr rb) N), (Z.testbit (_wr_ptr rb) N);
    cbn [andb xorb negb]; split; intros; try discriminate;
    rewrite ?E, ?Z.sub_diag, ?Z.mod_0_l by lia; repeat split.
Qed.

Lemma fill_and_drain_witness :
  pow2_size 64 3 (mk_header 21 13 8 []) /\
  empty (rb_get_state 64 (rb_advance_read_unsafe 64 (mk_header 21 13 8 []) 8))
  = true.
Proof.
  split; [exact pow2_small_header|].
  apply (fill_and_drain 64 3 (mk_header 21 13 8 []) pow2_small_header).
  reflexivity.
Defined.

(** X7. Advances add up and the two sides do not interfere: advancing a
    pointer by [n] and then by [m] leaves the descriptor exactly as one
    advance by [n + m] does (so publishing in pieces equals publishing at
    once, also across the [size_t] overflow), and a write advance and a
    read advance give the same descriptor in either order. *)
Theorem advance_additive (W : Z) (rb : lap_ptr_rb_header) (n m : Z) :
  rb_advance_write_unsafe W (rb_advance_write_unsafe W rb n) m
  = rb_advance_write_unsafe W rb (n + m) /\
  rb_advance_read_unsafe W (rb_advance_read_unsafe W rb n) m
  = rb_advance_read_unsafe W rb (n + m) /\
  rb_advance_read_unsafe W (rb_advance_write_unsafe W rb n) m
  = rb_advance_write_unsafe W (rb_advance_read_unsafe W rb m) n.
Proof.
  unfold rb_advance_write_unsafe, rb_advance_read_unsafe, wrap.
  cbn [_rd_ptr _wr_ptr size buffer].
  rewrite !Zplus_mod_idemp_l, !Z.add_assoc. repeat split.
Qed.

(** ** The demonstration program: storage *)




Lemma buffer_store_inv (buf buf' : list byte) (idx : Z) (v : byte) :
  buffer_store buf idx v = Some buf' ->
  0 <= idx < Z.of_nat (length buf) /\
  buf' = list_set buf (Z.to_nat idx) v.
Proof.
  unfold buffer_store.
  destruct (Z.leb_spec 0 idx), (Z.ltb_spec idx (Z.of_nat (length buf)));
    cbn [andb]; intros E; inversion E; split; (lia || reflexivity).
Qed.

(** ** The demonstration program: arithmetic at [BUFF_SIZE] *)



Lemma buff_pow2_size (W : Z) (rb : lap_ptr_rb_header) :
  15 <= W -> size rb = BUFF_SIZE -> pow2_size W 14 rb.
Proof. intros HW Hs. repeat split; try lia. exact Hs. Qed.





Lemma min_macro_spec (x y : Z) : min_macro x y = Z.min x y.
Proof. unfold min_macro. destruct (Z.ltb_spec x y); lia. Qed.

(** ** The demonstration program: invariant *)





(** ** The demonstration program: what the threads never do *)













(** ** The demonstration program: the loop outside its invariant *)

Lemma shiftr7_small (n : Z) : 0 <= n < 128 -> Z.shiftr n 7 = 0.
Proof.
  intros Hn. rewrite Z.shiftr_div_pow2 by lia. apply Z.div_small.
  change (2 ^ 7) with 128. lia.
Qed.

(** A ring of the program's size, 8284 bytes in use, with only 100 bytes
    left between the write index and the end of the storage. *)
Lemma short_chunk_example :
  let rb := mk_header 8000 16284 BUFF_SIZE (repeat x00 (Z.to_nat BUFF_SIZE)) in
  size rb = BUFF_SIZE /\
  Z.shiftr BUFF_SIZE 2 <= free_size (rb_get_state 64 rb) /\
  contiguous_free_size (rb_get_state 64 rb) < 128.
Proof. cbv zeta. split; [reflexivity|]. split; vm_compute; congruence. Defined.

(** X13. The generator's loop is only safe for chunks of at least 128
    bytes.  Started on a ring of [BUFF_SIZE] bytes whose [free_size] is at
    least [BUFF_SIZE >> 2] but whose [contiguous_free_size] is below 128,
    the generator picks that contiguous size as [n], gets
    [interval = n >> 7 = 0], and its first turn of the loop faults: the
    test [n > 0] does not keep [(++interval_counter) % interval] from being
    taken with [interval = 0]. *)
Theorem short_chunk_faults
  (W : Z) (rb : lap_ptr_rb_header) (g : generator_thread) :
  15 <= W -> size rb = BUFF_SIZE -> gen_pc g = gen_top ->
  Z.shiftr BUFF_SIZE 2 <= free_size (rb_get_state W rb) ->
  contiguous_free_size (rb_get_state W rb) < 128 ->
  exists rb1 g1,
    generator_step W rb g = Some (rb1, g1) /\
    gen_pc g1 = gen_for (wr_idx (rb_get_state W rb))
                        (contiguous_free_size (rb_get_state W rb)) 0 0 0 /\
    generator_step W rb1 g1 = None.
Proof.
  intros HW Hs Hpc Hfree Hshort.
  pose proof (buff_pow2_size W rb HW Hs) as HP.
  assert (Hpos : 1 <= contiguous_free_size (rb_get_state W rb)).
  { revert Hfree. rewrite (rb_get_state_indices W 14 rb HP).
    destruct (state_of_indices_sizes (2 ^ 14) (_rd_ptr rb mod 2 ^ 14)
                (_wr_ptr rb mod 2 ^ 14) (lap_differs 14 rb))
      as (_ & (_ & Hcf) & F1 & F2 & _);
      try (apply Z.mod_pos_bound; reflexivity).
    change (Z.shiftr BUFF_SIZE 2) with 4096. intros Hfree.
    destruct (Z.eq_dec (contiguous_free_size
      (state_of_indices (2 ^ 14) (_rd_ptr rb mod 2 ^ 14)
         (_wr_ptr rb mod 2 ^ 14) (lap_differs 14 rb))) 0) as [E|E]; [|lia].
    apply F2, F1 in E. lia. }
  change (Z.shiftr BUFF_SIZE 2) with 4096 in Hfree.
  unfold generator_step at 1. rewrite Hpc.
  change (Z.shiftr BUFF_SIZE 2) with 4096.
  rewrite Z.geb_leb. destruct (Z.leb_spec 4096 (free_size (rb_get_state W rb)));
    [|lia].
  rewrite min_macro_spec, Z.min_r, shiftr7_small by lia.
  eexists _, _. split; [reflexivity|]. split; [reflexivity|].
  unfold generator_step. cbn [gen_pc wr_counter].
  unfold wrap at 1. rewrite Z.mod_0_l by (apply Z.pow_nonzero; lia).
  destruct (Z.ltb_spec 0 (contiguous_free_size (rb_get_state W rb))); [|lia].
  destruct (buffer_store _ _ _); reflexivity.
Qed.

Lemma short_chunk_faults_witness :
  let rb := mk_header 8000 16284 BUFF_SIZE (repeat x00 (Z.to_nat BUFF_SIZE)) in
  (15 <= 64 /\ size rb = BUFF_SIZE /\
   Z.shiftr BUFF_SIZE 2 <= free_size (rb_get_state 64 rb) /\
   contiguous_free_size (rb_get_state 64 rb) < 128) /\
  exists rb1 g1,
    generator_step 64 rb (mk_generator 0 gen_top) = Some (rb1, g1) /\
    gen_pc g1 = gen_for (wr_idx (rb_get_state 64 rb))
                        (contiguous_free_size (rb_get_state 64 rb)) 0 0 0 /\
    generator_step 64 rb1 g1 = None.
Proof.
  cbv zeta. destruct short_chunk_example as (Hs & Hf & Hc).
  split; [split; [lia | split; [exact Hs | split; [exact Hf | exact Hc]]]|].
  apply (short_chunk_faults 64 _ (mk_generator 0 gen_top) ltac:(lia)
           Hs eq_refl Hf Hc).
Defined.

(** ** The demonstration program: one round of the generator *)








(** ** The demonstration program: what ends up in the storage *)




